(** * minikv: the store, its expiration index and the janitor

    A shallow embedding of [minikv.go] (the version with the expiration
    index [exp] and the three metadata channels).

    Conventions of the embedding:
    - [int64] and [time.Duration] values are integers of [Z]; the one place
      where the program adds two of them, [time.Now().Add(d).UnixNano()], has
      its wrap-around written out ([wrap64]);
    - [time.Now().UnixNano()] is an argument [now] of every operation that
      reads the clock;
    - [sync.Map] is a [gmap string Item], [map[int64]map[string]*struct{}] is
      a [gmap Z (gset string)] (the inner map only records membership);
    - a buffered channel is the queue of the values sent and not yet received;
      a send appends, a receive takes the head;
    - [go f(args)] appends the call to the list [spawned] of launched
      goroutines: the callbacks run asynchronously, the model records that
      they were launched and with which arguments;
    - the order in which [range] walks a Go map is not specified; the walk
      over [kv.exp] takes that order as an explicit argument. *)

From stdpp Require Import gmap strings list fin_maps.
From Stdlib Require Import ZArith Lia.

Local Open Scope Z_scope.

(** ** Machine integers *)

Definition wrap64 (z : Z) : Z := (z + 2 ^ 63) mod 2 ^ 64 - 2 ^ 63.

Definition in_int64 (z : Z) : Prop := - 2 ^ 63 <= z < 2 ^ 63.

(** [time.Now().Add(d).UnixNano()] when the clock reads [now]: [Add] keeps
    seconds and nanoseconds apart, so the instant itself is exact, and
    [UnixNano] folds it back into an [int64]. *)
Definition unixNanoAdd (now d : Z) : Z := wrap64 (now + d).

(** ** Constants *)

Definition NoExpiration : Z := -1.
Definition DefaultExpiration : Z := 0.

(** ** Data *)

Section Minikv.

(** The payloads callers store; the program never inspects them. *)
Context {V : Type}.

(** A Go [interface{}] value: [nil], a boxed [int64] (the program boxes an
    expiration time in one place) or a caller's payload. *)
Inductive iface : Type :=
  | Nil
  | Int64 (n : Z)
  | Dyn (v : V).

Record meta : Type := Meta { meta_Key : string; meta_Expiration : Z }.

Record updateMeta : Type :=
  UpdateMeta { um_meta : meta; PriorExpiration : Z }.

Record Item : Type :=
  MkItem { Key : string; Object : iface; Expiration : Z }.

(** [Item{}], the zero value. *)
Definition zeroItem : Item :=
  {| Key := ""; Object := Nil; Expiration := 0 |}.

(** [errors.New(text)]. *)
Inductive error : Type := errors_New (text : string).

(** A goroutine launched by [go kv.onDeleted(k, v)] or
    [go kv.onEvicted(k, v)]. *)
Inductive goroutine : Type :=
  | go_onDeleted (k : string) (v : iface)
  | go_onEvicted (k : string) (v : iface).

(** The store. [onDeleted] and [onEvicted] say whether the callback field is
    non-nil; [spawned] is the trace of goroutines launched so far. *)
Record KV : Type := MkKV {
  defaultExpiration : Z;
  cleanupInterval : Z;
  items : gmap string Item;
  onDeleted : bool;
  onEvicted : bool;
  metaAdd : list meta;
  metaUpdate : list updateMeta;
  metaDelete : list meta;
  exp : gmap Z (gset string);
  spawned : list goroutine
}.

(** Field updates. *)
Definition with_items (m : gmap string Item) (kv : KV) : KV :=
  MkKV (defaultExpiration kv) (cleanupInterval kv) m (onDeleted kv)
       (onEvicted kv) (metaAdd kv) (metaUpdate kv) (metaDelete kv) (exp kv)
       (spawned kv).

Definition with_metaAdd (q : list meta) (kv : KV) : KV :=
  MkKV (defaultExpiration kv) (cleanupInterval kv) (items kv) (onDeleted kv)
       (onEvicted kv) q (metaUpdate kv) (metaDelete kv) (exp kv) (spawned kv).

Definition with_metaUpdate (q : list updateMeta) (kv : KV) : KV :=
  MkKV (defaultExpiration kv) (cleanupInterval kv) (items kv) (onDeleted kv)
       (onEvicted kv) (metaAdd kv) q (metaDelete kv) (exp kv) (spawned kv).

Definition with_metaDelete (q : list meta) (kv : KV) : KV :=
  MkKV (defaultExpiration kv) (cleanupInterval kv) (items kv) (onDeleted kv)
       (onEvicted kv) (metaAdd kv) (metaUpdate kv) q (exp kv) (spawned kv).

Definition with_exp (e : gmap Z (gset string)) (kv : KV) : KV :=
  MkKV (defaultExpiration kv) (cleanupInterval kv) (items kv) (onDeleted kv)
       (onEvicted kv) (metaAdd kv) (metaUpdate kv) (metaDelete kv) e
       (spawned kv).

(** [go g]. *)
Definition spawn (g : goroutine) (kv : KV) : KV :=
  MkKV (defaultExpiration kv) (cleanupInterval kv) (items kv) (onDeleted kv)
       (onEvicted kv) (metaAdd kv) (metaUpdate kv) (metaDelete kv) (exp kv)
       (spawned kv ++ [g]).

(** [New]: empty store, empty channels, empty index; the janitor is the
    step relation [runJanitor] below. *)
Definition New (defaultExpiration cleanupInterval : Z) : KV :=
  MkKV defaultExpiration cleanupInterval ∅ false false [] [] [] ∅ [].

Definition OnEvicted (f : bool) (kv : KV) : KV :=
  MkKV (defaultExpiration kv) (cleanupInterval kv) (items kv) (onDeleted kv)
       f (metaAdd kv) (metaUpdate kv) (metaDelete kv) (exp kv) (spawned kv).

Definition OnDeleted (f : bool) (kv : KV) : KV :=
  MkKV (defaultExpiration kv) (cleanupInterval kv) (items kv) f
       (onEvicted kv) (metaAdd kv) (metaUpdate kv) (metaDelete kv) (exp kv)
       (spawned kv).

(** ** Store operations *)

(** The [switch exp] at the head of [Set]. *)
Definition expiredAt (now exp : Z) (kv : KV) : Z :=
  if decide (exp = DefaultExpiration) then
    unixNanoAdd now (defaultExpiration kv)
  else if decide (exp = NoExpiration) then 0
  else unixNanoAdd now exp.

Definition Set_ (now : Z) (key : string) (value : iface) (exp : Z)
    (kv : KV) : KV :=
  let expiredAt := expiredAt now exp kv in
  let item := {| Key := key; Expiration := expiredAt; Object := value |} in
  match items kv !! key with
  | None =>
      let kv := with_items (<[key := item]> (items kv)) kv in
      with_metaAdd
        (metaAdd kv ++
           [{| meta_Key := Key item; meta_Expiration := Expiration item |}])
        kv
  | Some priorItem =>
      let kv := with_items (<[key := item]> (items kv)) kv in
      if decide (Expiration item ≠ Expiration priorItem) then
        with_metaUpdate
          (metaUpdate kv ++
             [{| um_meta :=
                   {| meta_Key := key; meta_Expiration := expiredAt |};
                 PriorExpiration := Expiration priorItem |}])
          kv
      else kv
  end.

Definition Update (key : string) (value : iface) (kv : KV)
    : KV * option error :=
  match items kv !! key with
  | Some obj =>
      let item :=
        {| Key := Key obj; Object := value; Expiration := Expiration obj |} in
      let kv := with_items (<[key := item]> (items kv)) kv in
      (with_metaAdd
         (metaAdd kv ++
            [{| meta_Key := Key item; meta_Expiration := Expiration item |}])
         kv,
       None)
  | None => (kv, Some (errors_New "object doesn't exist"))
  end.

Definition Get (now : Z) (key : string) (kv : KV) : iface * bool :=
  match items kv !! key with
  | Some val =>
      if decide (Expiration val > now) then (Object val, true)
      else (Nil, false)
  | None => (Nil, false)
  end.

(** In [deleteInner] the item read from the map is bound by [val := ...]
    inside the [if], a new variable; the result parameter [val] keeps its
    zero value on every path, and [err] stays nil on the path that deletes. *)
Definition deleteInner (key : string) (kv : KV)
    : KV * (Item * option error) :=
  let val := zeroItem in
  match items kv !! key with
  | Some val' =>
      let kv :=
        if onDeleted kv then spawn (go_onDeleted key (Object val')) kv
        else kv in
      (with_items (delete key (items kv)) kv, (val, None))
  | None => (kv, (val, Some (errors_New "key args not exist")))
  end.

Definition Delete (key : string) (kv : KV) : KV * option error :=
  let '(kv, (itm, err)) := deleteInner key kv in
  match err with
  | Some e => (kv, Some e)
  | None =>
      (with_metaDelete
         (metaDelete kv ++
            [{| meta_Key := Key itm; meta_Expiration := Expiration itm |}])
         kv,
       None)
  end.

Definition IsExist (now : Z) (key : string) (kv : KV) : bool :=
  match items kv !! key with
  | Some val => bool_decide (Expiration val > now)
  | None => false
  end.

Definition IsExpired (now : Z) (key : string) (kv : KV)
    : bool * option error :=
  match items kv !! key with
  | Some val =>
      if decide (Expiration val > now) then (false, None) else (true, None)
  | None => (false, Some (errors_New "requested key are not exist"))
  end.

(** [sync.Map.Range(f)] with an [f] that always returns [true]: every entry
    is visited once. The functions folded below do not depend on the order of
    the visit. *)
Definition Range {S : Type} (f : string → Item → S → S)
    (m : gmap string Item) (s : S) : S :=
  map_fold f s m.

Definition ItemCount (now : Z) (kv : KV) : Z :=
  Range (λ _ item total,
           if decide (Expiration item > now) then total + 1 else total)
        (items kv) 0.

Definition ItemCountAll (kv : KV) : Z :=
  Range (λ _ _ total, total + 1) (items kv) 0.

Definition Flush (kv : KV) : KV :=
  Range (λ key _ kv, with_items (delete key (items kv)) kv) (items kv) kv.

(** ** The janitor *)

(** The outer loop of [DeleteExpired] up to its [break]: [order] lists the
    buckets in the order [range kv.exp] yields them; the result is the first
    one with [expiration < now && len(keys) > 0], if any. *)
Fixpoint firstDue (now : Z) (order : list (Z * gset string))
    : option (Z * gset string) :=
  match order with
  | [] => None
  | (expiration, keys) :: rest =>
      if decide (expiration < now ∧ (0 < size keys)%nat) then
        Some (expiration, keys)
      else firstDue now rest
  end.

(** The body of the inner loop, for one key [k] of the bucket. *)
Definition evictKey (k : string) (kv : KV) : KV :=
  let '(kv, (itm, err)) := deleteInner k kv in
  if bool_decide (err = None) && onEvicted kv then
    spawn (go_onEvicted (Key itm) (Int64 (Expiration itm))) kv
  else kv.

(** [order] is the order of the walk over [kv.exp]; the keys of the chosen
    bucket are walked as [elements] lists them (the store that results and
    the goroutines launched are the same for every order, up to the order of
    the launches). [expired] is 0 when no bucket was chosen. *)
Definition DeleteExpired (now : Z) (order : list (Z * gset string))
    (kv : KV) : KV :=
  let '(kv, expired) :=
    match firstDue now order with
    | Some (expiration, keys) =>
        (foldl (λ kv k, evictKey k kv) kv (elements keys), expiration)
    | None => (kv, 0)
    end in
  with_exp (delete expired (exp kv)) kv.

(** The three receiving arms of the [select] in [runJanitor], each applied
    to the value received. *)
Definition janitorAdd (lm : meta) (kv : KV) : KV :=
  match exp kv !! meta_Expiration lm with
  | Some curr =>
      with_exp (<[meta_Expiration lm := {[meta_Key lm]} ∪ curr]> (exp kv)) kv
  | None =>
      with_exp (<[meta_Expiration lm := {[meta_Key lm]}]> (exp kv)) kv
  end.

Definition janitorDelete (md : meta) (kv : KV) : KV :=
  match exp kv !! meta_Expiration md with
  | Some curr =>
      with_exp (<[meta_Expiration md := curr ∖ {[meta_Key md]}]> (exp kv)) kv
  | None => kv
  end.

Definition janitorUpdate (mu : updateMeta) (kv : KV) : KV :=
  let Key := meta_Key (um_meta mu) in
  let Expiration := meta_Expiration (um_meta mu) in
  let kv :=
    match exp kv !! PriorExpiration mu with
    | Some curr =>
        with_exp (<[PriorExpiration mu := curr ∖ {[Key]}]> (exp kv)) kv
    | None => kv
    end in
  match exp kv !! Expiration with
  | Some curr => with_exp (<[Expiration := {[Key]} ∪ curr]> (exp kv)) kv
  | None => with_exp (<[Expiration := {[Key]}]> (exp kv)) kv
  end.

(** One iteration of the [for { select { ... } }] loop of [runJanitor]: a
    receive from any channel that holds a value, the sweep only when all
    three are empty; the sweep walks [kv.exp] in some order. *)
Inductive runJanitor (now : Z) : KV → KV → Prop :=
  | recv_metaAdd lm q kv :
      metaAdd kv = lm :: q →
      runJanitor now kv (janitorAdd lm (with_metaAdd q kv))
  | recv_metaUpdate mu q kv :
      metaUpdate kv = mu :: q →
      runJanitor now kv (janitorUpdate mu (with_metaUpdate q kv))
  | recv_metaDelete md q kv :
      metaDelete kv = md :: q →
      runJanitor now kv (janitorDelete md (with_metaDelete q kv))
  | select_default order kv :
      metaAdd kv = [] → metaUpdate kv = [] → metaDelete kv = [] →
      order ≡ₚ map_to_list (exp kv) →
      runJanitor now kv (DeleteExpired now order kv).

(** ** The remaining readers *)

Definition Expired (now : Z) (item : Item) : bool :=
  bool_decide (now > Expiration item).

(** [List] and [ListAll] build a fresh Go map while [Range] walks the store,
    storing each item under the key held in the item ([m[item.Key] = item]).
    [order] is the sequence of entries the walk yields. *)
Definition List (now : Z) (order : list (string * Item))
    : gmap string Item :=
  foldl (λ m '(_, item),
           if decide (Expiration item > now) then <[Key item := item]> m
           else m)
        ∅ order.

Definition ListAll (order : list (string * Item)) : gmap string Item :=
  foldl (λ m '(_, item), <[Key item := item]> m) ∅ order.

(** ** Invariants *)

(** Every item is stored under the key it holds. *)
Definition keyed (kv : KV) : Prop :=
  ∀ key item, items kv !! key = Some item → Key item = key.

(** The key is in the bucket of timestamp [t]. *)
Definition filed (kv : KV) (key : string) (t : Z) : Prop :=
  ∃ keys, exp kv !! t = Some keys ∧ key ∈ keys.

(** Every stored item's key is filed in the bucket of the item's
    expiration. *)
Definition indexed (kv : KV) : Prop :=
  ∀ key item, items kv !! key = Some item → filed kv key (Expiration item).

(** No value is waiting in any of the three channels. *)
Definition drained (kv : KV) : Prop :=
  metaAdd kv = [] ∧ metaUpdate kv = [] ∧ metaDelete kv = [].

End Minikv.

Arguments iface : clear implicits.
Arguments Item : clear implicits.
Arguments KV : clear implicits.
Arguments goroutine : clear implicits.

(** ** The earlier sweep

    The first version of [minikv.go] has no index: its [DeleteExpired] walks
    the whole store. *)

Module Earlier.

Section Earlier.

Context {V : Type}.

Definition DeleteExpired (now : Z) (kv : KV V) : KV V :=
  Range (λ key item kv,
           if decide (now > Expiration item) then
             let kv :=
               if onEvicted kv then
                 spawn (go_onEvicted (Key item) (Object item)) kv
               else kv in
             with_items (delete key (items kv)) kv
           else kv)
        (items kv) kv.

(** The goroutines a full pass launches when the on-evicted callback is
    registered: one for each entry whose expiration is before now. *)
Definition evictions (now : Z) (l : list (string * Item V))
    : list (goroutine V) :=
  (λ e, go_onEvicted (Key e.2) (Object e.2)) <$>
  filter (λ e, now > Expiration e.2) l.

End Earlier.

End Earlier.

(** ** Examples *)

Module Examples.

Definition mike : iface string := Dyn "mike".

Definition kv0 : KV string := New 5000 1000.

(** [kv.Set("name", "mike", NoExpiration)] when the clock reads 100. *)
Definition kvName : KV string := Set_ 100 "name" mike NoExpiration kv0.

(** The same store once the janitor has received the [Added] value. *)
Definition kvNameIndexed : KV string :=
  janitorAdd (Meta "name" 0) (with_metaAdd [] kvName).

(** A key set for an hour (3600 units) at time 100. *)
Definition kvHour : KV string := Set_ 100 "k" (Dyn "v1") 3600 kv0.

(** Both callbacks registered, then ["a"] set at time 100 to expire at 150,
    and the janitor has indexed it. *)
Definition kvA : KV string :=
  Set_ 100 "a" (Dyn "v") 50 (OnEvicted true (OnDeleted true kv0)).

Definition kvAIndexed : KV string :=
  janitorAdd (Meta "a" 150) (with_metaAdd [] kvA).

(** Two keys with different expirations, 110 and 120, both indexed. *)
Definition kvTwo : KV string :=
  janitorAdd (Meta "b" 120)
    (janitorAdd (Meta "a" 110)
       (with_metaAdd []
          (Set_ 100 "b" (Dyn "vb") 20 (Set_ 100 "a" (Dyn "va") 10 kv0)))).

(** Two keys in the store, nothing indexed yet. *)
Definition kvPair : KV string :=
  Set_ 100 "b" (Dyn "vb") 20 (Set_ 100 "a" (Dyn "va") 10 kv0).

End Examples.

(** ** Machine integers *)

Lemma wrap64_in_range (z : Z) : in_int64 z → wrap64 z = z.
Proof.
  unfold in_int64, wrap64. intros Hz.
  rewrite Z.mod_small by lia. lia.
Qed.

Lemma unixNanoAdd_exact (now d : Z) :
  in_int64 (now + d) → unixNanoAdd now d = now + d.
Proof. apply wrap64_in_range. Qed.

(** ** Reading *)

Section Reading.

Context {V : Type}.
Implicit Types (kv : KV V) (value : iface V) (item : Item V).

(** What [Get] tests: the key is in the map and its expiration is after
    [now]. *)
Lemma Get_found now key kv item :
  items kv !! key = Some item → Expiration item > now →
  Get now key kv = (Object item, true).
Proof.
  intros Hlook Hexp. unfold Get. rewrite Hlook.
  destruct (decide (Expiration item > now)); [reflexivity | contradiction].
Qed.

Lemma Get_not_after now key kv item :
  items kv !! key = Some item → Expiration item <= now →
  Get now key kv = (Nil, false).
Proof.
  intros Hlook Hexp. unfold Get. rewrite Hlook.
  destruct (decide (Expiration item > now)); [lia | reflexivity].
Qed.

Lemma Get_absent now key kv :
  items kv !! key = None → Get now key kv = (Nil, false).
Proof. intros Hlook. unfold Get. by rewrite Hlook. Qed.

Lemma Get_found_iff now key kv :
  (Get now key kv).2 = true ↔
  ∃ item, items kv !! key = Some item ∧ Expiration item > now.
Proof.
  unfold Get. destruct (items kv !! key) as [val|]; simpl.
  - destruct (decide (Expiration val > now)) as [Hexp|Hexp]; simpl.
    + split; [eauto | done].
    + split; [done|]. intros (item & [= <-] & Hlater). done.
  - split; [done|]. by intros (item & Hitem & _).
Qed.

Lemma IsExist_Get now key kv : IsExist now key kv = (Get now key kv).2.
Proof.
  unfold IsExist, Get. destruct (items kv !! key) as [val|]; [|done].
  destruct (decide (Expiration val > now)) as [H|H]; simpl.
  - by apply bool_decide_eq_true_2.
  - by apply bool_decide_eq_false_2.
Qed.

(** C10. Whenever [Get] answers [found = false], for a key that is absent or
    for one whose item it treats as expired, the value it returns is [nil]:
    no stored value comes back together with [false]. *)
Theorem Get_false_is_nil now key kv :
  (Get now key kv).2 = false → (Get now key kv).1 = Nil.
Proof.
  unfold Get. destruct (items kv !! key) as [val|]; [|done].
  destruct (decide (Expiration val > now)); simpl; [discriminate | done].
Qed.

End Reading.

Lemma Get_false_is_nil_witness :
  (Get 100 "name" Examples.kvName).1 = Nil.
Proof. apply Get_false_is_nil. vm_compute. reflexivity. Defined.

(** ** Writing *)

Section Writing.

Context {V : Type}.
Implicit Types (kv : KV V) (value : iface V) (item prior : Item V).

Lemma expiredAt_Default now kv :
  expiredAt now DefaultExpiration kv = unixNanoAdd now (defaultExpiration kv).
Proof. reflexivity. Qed.

Lemma expiredAt_No now kv : expiredAt now NoExpiration kv = 0.
Proof. reflexivity. Qed.

Lemma expiredAt_other now exp kv :
  exp ≠ DefaultExpiration → exp ≠ NoExpiration →
  expiredAt now exp kv = unixNanoAdd now exp.
Proof.
  intros Hd Hn. unfold expiredAt.
  destruct (decide (exp = DefaultExpiration)); [done|].
  destruct (decide (exp = NoExpiration)); done.
Qed.

Lemma Set_items now key value exp kv :
  items (Set_ now key value exp kv) =
  <[key := MkItem key value (expiredAt now exp kv)]> (items kv).
Proof.
  unfold Set_. destruct (items kv !! key) as [prior|]; simpl; [|done].
  by destruct (decide _).
Qed.

(** After [Set] with [NoExpiration] the item is stored with expiration 0,
    which no clock reading at or after the epoch is below: [Get] does not
    find it. *)
Lemma Get_after_Set_NoExpiration now now' key value kv :
  0 <= now' →
  Get now' key (Set_ now key value NoExpiration kv) = (Nil, false).
Proof.
  intros Hnow.
  apply (Get_not_after now' key _ (MkItem key value 0)); [|simpl; lia].
  rewrite Set_items, expiredAt_No. apply lookup_insert_eq.
Qed.

(** The three cases of the event [Set] sends. *)
Lemma Set_absent_events now key value exp kv :
  items kv !! key = None →
  let kv' := Set_ now key value exp kv in
  metaAdd kv' = metaAdd kv ++ [Meta key (expiredAt now exp kv)] ∧
  metaUpdate kv' = metaUpdate kv ∧ metaDelete kv' = metaDelete kv.
Proof. intros Hlook. unfold Set_. by rewrite Hlook. Qed.

Lemma Set_changed_events now key value exp kv prior :
  items kv !! key = Some prior →
  Expiration prior ≠ expiredAt now exp kv →
  let kv' := Set_ now key value exp kv in
  metaAdd kv' = metaAdd kv ∧
  metaUpdate kv' =
    metaUpdate kv ++
      [UpdateMeta (Meta key (expiredAt now exp kv)) (Expiration prior)] ∧
  metaDelete kv' = metaDelete kv.
Proof.
  intros Hlook Hne. unfold Set_. rewrite Hlook. simpl.
  destruct (decide _) as [|Heq]; [done|].
  exfalso. apply Heq. intros Hx. apply Hne. by rewrite Hx.
Qed.

Lemma Set_same_events now key value exp kv prior :
  items kv !! key = Some prior →
  Expiration prior = expiredAt now exp kv →
  let kv' := Set_ now key value exp kv in
  metaAdd kv' = metaAdd kv ∧ metaUpdate kv' = metaUpdate kv ∧
  metaDelete kv' = metaDelete kv.
Proof.
  intros Hlook Heq. unfold Set_. rewrite Hlook. simpl.
  destruct (decide _) as [Hne|]; [|done]. by destruct Hne.
Qed.

(** C7. [Set] resolves the stored expiration from its [exp] argument: the
    default sentinel gives now + defaultExpiration, the never-expire sentinel
    gives 0, any other value gives now + exp (the sums are the program's
    [int64] sums, equal to the integer sums whenever these fit in 64 bits).
    It overwrites the item under the key unconditionally (it has no error
    result), and sends exactly one [Added] value when the key was absent,
    exactly one [Updated] value with the prior and the new expiration when the
    key was present and the expiration changed, and nothing when the key was
    present and the expiration is the same. *)
Theorem Set_resolves_overwrites_emits now key value exp kv :
  let e := expiredAt now exp kv in
  let kv' := Set_ now key value exp kv in
  (exp = DefaultExpiration → e = unixNanoAdd now (defaultExpiration kv)) ∧
  (exp = NoExpiration → e = 0) ∧
  (exp ≠ DefaultExpiration → exp ≠ NoExpiration → e = unixNanoAdd now exp) ∧
  (∀ d, in_int64 (now + d) → unixNanoAdd now d = now + d) ∧
  items kv' = <[key := MkItem key value e]> (items kv) ∧
  (items kv !! key = None →
     metaAdd kv' = metaAdd kv ++ [Meta key e] ∧
     metaUpdate kv' = metaUpdate kv ∧ metaDelete kv' = metaDelete kv) ∧
  (∀ prior, items kv !! key = Some prior → Expiration prior ≠ e →
     metaAdd kv' = metaAdd kv ∧
     metaUpdate kv' =
       metaUpdate kv ++ [UpdateMeta (Meta key e) (Expiration prior)] ∧
     metaDelete kv' = metaDelete kv) ∧
  (∀ prior, items kv !! key = Some prior → Expiration prior = e →
     metaAdd kv' = metaAdd kv ∧ metaUpdate kv' = metaUpdate kv ∧
     metaDelete kv' = metaDelete kv).
Proof.
  intros e kv'. subst e kv'.
  split; [intros ->; apply expiredAt_Default|].
  split; [intros ->; apply expiredAt_No|].
  split; [apply expiredAt_other|].
  split; [intros d; apply unixNanoAdd_exact|].
  split; [apply Set_items|].
  split; [apply Set_absent_events|].
  split; [apply Set_changed_events | apply Set_same_events].
Qed.

End Writing.

Lemma Set_resolves_overwrites_emits_witness :
  metaAdd (Set_ 100 "name" Examples.mike 50 Examples.kv0) = [Meta "name" 150].
Proof.
  pose proof (Set_resolves_overwrites_emits 100 "name" Examples.mike 50
                Examples.kv0) as H.
  cbv zeta in H.
  destruct H as (_ & _ & Hother & Hexact & _ & Hadd & _).
  destruct (Hadd eq_refl) as [Hq _].
  rewrite Hq, Hother, Hexact.
  - reflexivity.
  - unfold in_int64. lia.
  - discriminate.
  - discriminate.
Defined.

(** ** Update and Delete *)

Section UpdateDelete.

Context {V : Type}.
Implicit Types (kv : KV V) (value : iface V) (item : Item V).

(** X21. [Update] on an absent key returns the not-found error and the store
    as it was; on a present key it replaces the value only, the stored
    expiration stays exactly what it was (it is not recomputed from the
    clock), and a [Get] that follows at a clock reading strictly before that
    expiration returns the new value with [found = true]. *)
Theorem Update_keeps_expiration key value kv :
  (items kv !! key = None →
     Update key value kv = (kv, Some (errors_New "object doesn't exist"))) ∧
  (∀ item, items kv !! key = Some item →
     (Update key value kv).2 = None ∧
     items (Update key value kv).1 =
       <[key := MkItem (Key item) value (Expiration item)]> (items kv) ∧
     (∀ now, Expiration item > now →
        Get now key (Update key value kv).1 = (value, true))).
Proof.
  split.
  - intros Hlook. unfold Update. by rewrite Hlook.
  - intros item Hlook. unfold Update. rewrite Hlook. simpl.
    split; [done|]. split; [done|].
    intros now Hexp.
    apply (Get_found now key _ (MkItem (Key item) value (Expiration item)));
      [|done].
    simpl. apply lookup_insert_eq.
Qed.

(** What [deleteInner] returns: the zero [Item] on both paths. *)
Lemma deleteInner_present key kv item :
  items kv !! key = Some item →
  deleteInner key kv =
    (with_items (delete key (items kv))
       (if onDeleted kv then spawn (go_onDeleted key (Object item)) kv
        else kv),
     (zeroItem, None)).
Proof.
  intros Hlook. unfold deleteInner. rewrite Hlook. by destruct (onDeleted kv).
Qed.

Lemma deleteInner_absent key kv :
  items kv !! key = None →
  deleteInner key kv = (kv, (zeroItem, Some (errors_New "key args not exist"))).
Proof. intros Hlook. unfold deleteInner. by rewrite Hlook. Qed.

Lemma Delete_present key kv item :
  items kv !! key = Some item →
  (Delete key kv).2 = None ∧
  items (Delete key kv).1 = delete key (items kv) ∧
  spawned (Delete key kv).1 =
    spawned kv ++
      (if onDeleted kv then [go_onDeleted key (Object item)] else []) ∧
  metaDelete (Delete key kv).1 = metaDelete kv ++ [Meta "" 0].
Proof.
  intros Hlook. unfold Delete. rewrite (deleteInner_present _ _ _ Hlook).
  destruct (onDeleted kv); simpl; by rewrite ?app_nil_r.
Qed.

Lemma Delete_absent key kv :
  items kv !! key = None →
  Delete key kv = (kv, Some (errors_New "key args not exist")).
Proof.
  intros Hlook. unfold Delete. by rewrite (deleteInner_absent _ _ Hlook).
Qed.

Lemma Delete_twice key kv item :
  items kv !! key = Some item →
  (Delete key kv).2 = None ∧
  (Delete key (Delete key kv).1).2 = Some (errors_New "key args not exist").
Proof.
  intros Hlook. destruct (Delete_present key kv item Hlook) as (He & Hi & _).
  split; [done|]. rewrite Delete_absent; [done|].
  rewrite Hi. apply lookup_delete_eq.
Qed.

End UpdateDelete.

Lemma Update_keeps_expiration_witness :
  Get 200 "k" (Update "k" (Dyn "v2") Examples.kvHour).1 = (Dyn "v2", true).
Proof.
  destruct (Update_keeps_expiration "k" (Dyn "v2") Examples.kvHour)
    as [_ Hpresent].
  destruct (Hpresent (MkItem "k" (Dyn "v1") 3700)) as (_ & _ & Hget).
  - vm_compute. reflexivity.
  - apply Hget. simpl. lia.
Defined.

(** ** Flush and the counts *)

Section Flushing.

Context {V : Type}.
Implicit Types (kv : KV V).

Lemma ItemCountAll_size kv : ItemCountAll kv = Z.of_nat (size (items kv)).
Proof.
  unfold ItemCountAll, Range.
  apply (map_fold_weak_ind (λ total m, total = Z.of_nat (size m))).
  - by rewrite map_size_empty.
  - intros i x m r Hi ->. rewrite map_size_insert_None by done. lia.
Qed.

Lemma Flush_items kv : items (Flush kv) = ∅.
Proof.
  apply map_eq. intros k. rewrite lookup_empty.
  assert (∀ m : gmap string (Item V),
    items (Range (λ key _ kv, with_items (delete key (items kv)) kv) m kv)
      !! k = match m !! k with Some _ => None | None => items kv !! k end)
    as Hfold.
  { unfold Range.
    apply (map_fold_weak_ind (λ r (m : gmap string (Item V)),
      items r !! k
      = match m !! k with Some _ => None | None => items kv !! k end)).
    - by rewrite lookup_empty.
    - intros i x m r Hi IH. simpl.
      destruct (decide (i = k)) as [->|Hne].
      + by rewrite lookup_delete_eq, lookup_insert_eq.
      + by rewrite lookup_delete_ne, lookup_insert_ne. }
  unfold Flush. rewrite Hfold. by destruct (items kv !! k).
Qed.

(** [Flush] touches the map of items only: no goroutine is launched, nothing
    is sent, the index is as it was. *)
Lemma Flush_frame kv :
  spawned (Flush kv) = spawned kv ∧ metaAdd (Flush kv) = metaAdd kv ∧
  metaUpdate (Flush kv) = metaUpdate kv ∧
  metaDelete (Flush kv) = metaDelete kv ∧ exp (Flush kv) = exp kv.
Proof.
  unfold Flush, Range.
  apply (map_fold_weak_ind (λ r (m : gmap string (Item V)),
    spawned r = spawned kv ∧ metaAdd r = metaAdd kv ∧
    metaUpdate r = metaUpdate kv ∧ metaDelete r = metaDelete kv ∧
    exp r = exp kv)).
  - done.
  - intros i x m r _ IH. exact IH.
Qed.

(** C8. [Flush] removes every entry that is in the store ([ItemCountAll] is 0
    right after it) and launches neither the on-deleted nor the on-evicted
    callback: the trace of launched goroutines is what it was. *)
Theorem Flush_clears_silently kv :
  items (Flush kv) = ∅ ∧ ItemCountAll (Flush kv) = 0 ∧
  spawned (Flush kv) = spawned kv.
Proof.
  split; [apply Flush_items|]. split.
  - by rewrite ItemCountAll_size, Flush_items, map_size_empty.
  - apply Flush_frame.
Qed.

End Flushing.

(** ** The sweep *)

Section Sweep.

Context {V : Type}.
Implicit Types (kv : KV V) (order : list (Z * gset string)).

Lemma firstDue_Some now order t keys :
  firstDue now order = Some (t, keys) →
  (t, keys) ∈ order ∧ t < now ∧ (0 < size keys)%nat.
Proof.
  induction order as [|[t' keys'] rest IH]; simpl; [done|].
  destruct (decide (t' < now ∧ (0 < size keys')%nat)) as [[Ht Hs]|Hno].
  - intros [= <- <-]. split; [apply list_elem_of_here | done].
  - intros Hrest. destruct (IH Hrest) as (Hin & Ht & Hs).
    split; [by apply list_elem_of_further | done].
Qed.

Lemma firstDue_None now order t keys :
  firstDue now order = None → (t, keys) ∈ order →
  ¬ (t < now ∧ (0 < size keys)%nat).
Proof.
  induction order as [|[t' keys'] rest IH]; simpl.
  - intros _ Hin. by apply elem_of_nil in Hin.
  - destruct (decide (t' < now ∧ (0 < size keys')%nat)) as [|Hno]; [done|].
    intros Hrest [[= -> ->]|Hin]%elem_of_cons; [done | by apply IH].
Qed.

Lemma evictKey_items k kv : items (evictKey k kv) = delete k (items kv).
Proof.
  unfold evictKey. destruct (items kv !! k) as [item|] eqn:Hlook.
  - rewrite (deleteInner_present _ _ _ Hlook).
    destruct (onDeleted kv); simpl; by destruct (onEvicted kv).
  - rewrite (deleteInner_absent _ _ Hlook). simpl.
    symmetry. by apply delete_id.
Qed.

Lemma evictKey_exp k kv : exp (evictKey k kv) = exp kv.
Proof.
  unfold evictKey. destruct (items kv !! k) as [item|] eqn:Hlook.
  - rewrite (deleteInner_present _ _ _ Hlook).
    destruct (onDeleted kv); simpl; by destruct (onEvicted kv).
  - by rewrite (deleteInner_absent _ _ Hlook).
Qed.

Lemma foldl_evictKey_exp (l : list string) kv :
  exp (foldl (λ kv k, evictKey k kv) kv l) = exp kv.
Proof.
  revert kv. induction l as [|k l IH]; intros kv; simpl; [done|].
  by rewrite IH, evictKey_exp.
Qed.

Lemma foldl_evictKey_items (l : list string) kv k :
  items (foldl (λ kv k, evictKey k kv) kv l) !! k =
  if decide (k ∈ l) then None else items kv !! k.
Proof.
  revert kv. induction l as [|k' l IH]; intros kv; simpl.
  - destruct (decide (k ∈ [])) as [Hin|]; [|done].
    by apply elem_of_nil in Hin.
  - rewrite IH, evictKey_items.
    destruct (decide (k ∈ l)) as [Hl|Hl].
    + rewrite decide_True; [done | by apply list_elem_of_further].
    + destruct (decide (k = k')) as [->|Hne].
      * rewrite lookup_delete_eq.
        rewrite decide_True; [done | apply list_elem_of_here].
      * rewrite lookup_delete_ne by done.
        rewrite decide_False; [done|].
        intros [?|?]%elem_of_cons; done.
Qed.

(** The two outcomes of a pass, by what the walk found. *)
Lemma DeleteExpired_found now order kv t keys :
  firstDue now order = Some (t, keys) →
  exp (DeleteExpired now order kv) = delete t (exp kv) ∧
  (∀ k, k ∈ keys → items (DeleteExpired now order kv) !! k = None) ∧
  (∀ k, k ∉ keys → items (DeleteExpired now order kv) !! k = items kv !! k).
Proof.
  intros Hfirst. unfold DeleteExpired. rewrite Hfirst. simpl.
  split; [by rewrite foldl_evictKey_exp|].
  split; intros k Hk; rewrite foldl_evictKey_items.
  - rewrite decide_True; [done | by apply elem_of_elements].
  - rewrite decide_False; [done | by rewrite elem_of_elements].
Qed.

Lemma DeleteExpired_none now order kv :
  firstDue now order = None →
  DeleteExpired now order kv = with_exp (delete 0 (exp kv)) kv.
Proof. intros Hfirst. unfold DeleteExpired. by rewrite Hfirst. Qed.

(** C3, as the program has it. One pass of the sweep handles at most one
    bucket: the first one, in the order the walk over the index meets them,
    whose timestamp is strictly before now and which is not empty. It deletes
    every member key of that bucket from the store and drops the bucket from
    the index; when there is no such bucket the store is as it was. A bucket
    whose timestamp is now or later is never touched. (The clock reads a
    time after the epoch.) *)
Theorem DeleteExpired_one_due_bucket now order kv :
  order ≡ₚ map_to_list (exp kv) → 0 < now →
  let kv' := DeleteExpired now order kv in
  ((∃ t keys,
      firstDue now order = Some (t, keys) ∧
      exp kv !! t = Some keys ∧ t < now ∧ keys ≠ ∅ ∧
      exp kv' = delete t (exp kv) ∧
      (∀ k, k ∈ keys → items kv' !! k = None) ∧
      (∀ k, k ∉ keys → items kv' !! k = items kv !! k))
   ∨ ((∀ t keys, exp kv !! t = Some keys → t < now → keys = ∅) ∧
      items kv' = items kv ∧
      (∀ t, t ≠ 0 → exp kv' !! t = exp kv !! t)))
  ∧ (∀ t, now <= t → exp kv' !! t = exp kv !! t).
Proof.
  intros Hperm Hnow kv'. subst kv'.
  destruct (firstDue now order) as [[t keys]|] eqn:Hfirst.
  - destruct (firstDue_Some _ _ _ _ Hfirst) as (Hin & Ht & Hsize).
    destruct (DeleteExpired_found now order kv t keys Hfirst)
      as (Hexp & Hgone & Hkept).
    split.
    + left. exists t, keys. split; [done|].
      split; [by apply elem_of_map_to_list; rewrite <- Hperm|].
      split; [done|]. split; [|done].
      intros ->. rewrite size_empty in Hsize. lia.
    + intros t' Ht'. rewrite Hexp. apply lookup_delete_ne. lia.
  - rewrite (DeleteExpired_none _ _ _ Hfirst). simpl. split.
    + right. split; [|split; [done|]].
      * intros t keys Hlook Ht.
        apply elem_of_map_to_list in Hlook. rewrite <- Hperm in Hlook.
        pose proof (firstDue_None _ _ _ _ Hfirst Hlook) as Hno.
        apply leibniz_equiv, size_empty_inv.
        destruct (size keys); [done|]. exfalso. apply Hno. split; lia.
      * intros t Ht. by apply lookup_delete_ne.
    + intros t Ht. apply lookup_delete_ne. lia.
Qed.

End Sweep.

Lemma DeleteExpired_one_due_bucket_witness :
  items (DeleteExpired 200 [(110, {["a"]}); (120, {["b"]})] Examples.kvTwo)
    !! "a" = None.
Proof.
  destruct (DeleteExpired_one_due_bucket 200
              [(110, {["a"]}); (120, {["b"]})] Examples.kvTwo)
    as [[(t & keys & Hfirst & _ & _ & _ & _ & Hgone & _)|(Hnone & _)] _].
  - vm_compute. reflexivity.
  - lia.
  - assert (firstDue 200 [(110, {["a"]}); (120, {["b"]})]
            = Some (110, {["a"]})) as Hfd by (vm_compute; reflexivity).
    rewrite Hfd in Hfirst. injection Hfirst as <- <-.
    apply Hgone. by apply elem_of_singleton.
  - exfalso.
    assert (({["a"]} : gset string) = ∅) as Hempty.
    { apply (Hnone 110); [vm_compute; reflexivity | lia]. }
    apply (non_empty_singleton_L (C:=gset string) "a"). exact Hempty.
Defined.

(** ** Index events *)

Section IndexEvents.

Context {V : Type}.
Implicit Types (kv : KV V).

Lemma janitorAdd_lookup key t kv t' :
  exp (janitorAdd (Meta key t) kv) !! t' =
  if decide (t' = t) then Some ({[key]} ∪ default ∅ (exp kv !! t))
  else exp kv !! t'.
Proof.
  unfold janitorAdd. simpl.
  destruct (exp kv !! t) as [curr|] eqn:Hlook; simpl;
    destruct (decide (t' = t)) as [->|Hne];
    rewrite ?lookup_insert_eq, ?lookup_insert_ne by done; try done.
  by rewrite union_empty_r_L.
Qed.

Lemma janitorDelete_lookup key t kv t' :
  exp (janitorDelete (Meta key t) kv) !! t' =
  if decide (t' = t) then (λ curr, curr ∖ {[key]}) <$> exp kv !! t
  else exp kv !! t'.
Proof.
  unfold janitorDelete. simpl.
  destruct (exp kv !! t) as [curr|] eqn:Hlook; simpl;
    destruct (decide (t' = t)) as [->|Hne];
    rewrite ?lookup_insert_eq, ?lookup_insert_ne by done; done.
Qed.

(** The [metaUpdate] arm is the body of the [metaDelete] arm at the prior
    expiration followed by that of the [metaAdd] arm. *)
Lemma janitorUpdate_arms mu kv :
  janitorUpdate mu kv =
  janitorAdd (um_meta mu)
    (janitorDelete (Meta (meta_Key (um_meta mu)) (PriorExpiration mu)) kv).
Proof. reflexivity. Qed.

Lemma janitorUpdate_lookup_new key oldT newT kv :
  exp (janitorUpdate (UpdateMeta (Meta key newT) oldT) kv) !! newT =
  Some ({[key]} ∪ default ∅ (exp kv !! newT)).
Proof.
  rewrite janitorUpdate_arms. simpl.
  rewrite janitorAdd_lookup, decide_True by done.
  rewrite janitorDelete_lookup.
  destruct (decide (newT = oldT)) as [->|Hne]; [|done].
  destruct (exp kv !! oldT) as [curr|]; simpl; [|done].
  f_equal. apply set_eq. intros x.
  rewrite !elem_of_union, elem_of_difference, elem_of_singleton.
  destruct (decide (x = key)); tauto.
Qed.

(** An event never takes a bucket out of the index. *)
Lemma janitorDelete_dom key t kv :
  dom (exp (janitorDelete (Meta key t) kv)) = dom (exp kv).
Proof.
  apply set_eq. intros t'. rewrite !elem_of_dom, janitorDelete_lookup.
  destruct (decide (t' = t)) as [->|]; [|done].
  by rewrite fmap_is_Some.
Qed.

(** C9, as the program has it. Applying [Updated(key, oldT, newT)] with
    newT other than 0 takes the key out of bucket oldT, which stays in the
    index with the keys that remain (none, possibly), then puts the key into
    bucket newT, created if it was not there; applying [Removed(key, oldT)]
    takes the key out of bucket oldT, which stays in the index as well. No
    other bucket changes. *)
Theorem janitor_events_keep_buckets key oldT newT kv :
  newT ≠ 0 →
  let kvU := janitorUpdate (UpdateMeta (Meta key newT) oldT) kv in
  let kvR := janitorDelete (Meta key oldT) kv in
  (oldT ≠ newT →
     exp kvU !! oldT = (λ curr, curr ∖ {[key]}) <$> exp kv !! oldT) ∧
  exp kvU !! newT = Some ({[key]} ∪ default ∅ (exp kv !! newT)) ∧
  (∀ t, t ≠ oldT → t ≠ newT → exp kvU !! t = exp kv !! t) ∧
  exp kvR !! oldT = (λ curr, curr ∖ {[key]}) <$> exp kv !! oldT ∧
  (∀ t, t ≠ oldT → exp kvR !! t = exp kv !! t) ∧
  dom (exp kvR) = dom (exp kv).
Proof.
  intros _ kvU kvR. subst kvU kvR.
  split; [|split; [apply janitorUpdate_lookup_new|split; [|split; [|split]]]].
  - intros Hne. rewrite janitorUpdate_arms. simpl.
    rewrite janitorAdd_lookup, decide_False by done.
    by rewrite janitorDelete_lookup, decide_True.
  - intros t Hold Hnew. rewrite janitorUpdate_arms. simpl.
    rewrite janitorAdd_lookup, decide_False by done.
    by rewrite janitorDelete_lookup, decide_False.
  - by rewrite janitorDelete_lookup, decide_True.
  - intros t Hne. by rewrite janitorDelete_lookup, decide_False.
  - apply janitorDelete_dom.
Qed.

End IndexEvents.

Lemma janitor_events_keep_buckets_witness :
  exp (janitorUpdate (UpdateMeta (Meta "a" 300) 150) Examples.kvAIndexed)
    !! 300 = Some {["a"]}.
Proof.
  destruct (janitor_events_keep_buckets "a" 150 300 Examples.kvAIndexed)
    as (_ & Hnew & _).
  - discriminate.
  - rewrite Hnew. vm_compute. reflexivity.
Defined.

(** ** The program on concrete stores *)

Section Concrete.

Import Examples.

(** C1. The claim: [Get] finds a key exactly when it is in the store and not
    expired, an item with expiration 0 (never expires) being always found,
    and [IsExist] agrees. The program tests [Expiration > now] alone: after
    [Set("name", "mike", NoExpiration)] the item is stored with expiration 0
    and neither [Get] nor [IsExist] finds it. *)
Theorem Get_misses_NoExpiration_item :
  items kvName !! "name" = Some (MkItem "name" mike 0) ∧
  Get 100 "name" kvName = (Nil, false) ∧
  IsExist 100 "name" kvName = false.
Proof. vm_compute. done. Qed.

(** C2. The claim: a key that never expires is in no bucket, [Added(key, 0)]
    puts nothing into the index, so the sweep never selects such a key. The
    program has no test for 0: the janitor receives the [Added] value that
    [Set("name", "mike", NoExpiration)] sent, files the key under bucket 0,
    and its next sweep deletes the key from the store. *)
Theorem janitor_indexes_and_evicts_NoExpiration_item :
  runJanitor 100 kvName kvNameIndexed ∧
  exp kvNameIndexed !! 0 = Some {["name"]} ∧
  runJanitor 200 kvNameIndexed
    (DeleteExpired 200 [(0, {["name"]})] kvNameIndexed) ∧
  items (DeleteExpired 200 [(0, {["name"]})] kvNameIndexed) !! "name" = None.
Proof.
  split; [|split; [|split]].
  - unfold kvNameIndexed. by apply recv_metaAdd.
  - vm_compute. reflexivity.
  - apply select_default; reflexivity.
  - vm_compute. reflexivity.
Qed.

(** C3, as stated, fails. With buckets 110 and 120 both due at time 200, a
    pass that meets 110 first leaves bucket 120 and its key in place, and a
    pass that meets 120 first leaves bucket 110 and its key; and at time 110
    exactly, bucket 110 is not handled at all. *)
Lemma DeleteExpired_leaves_due_bucket :
  let order1 := [(110, {["a"]}); (120, {["b"]})] in
  let order2 := [(120, {["b"]}); (110, {["a"]})] in
  order1 ≡ₚ map_to_list (exp kvTwo) ∧ order2 ≡ₚ map_to_list (exp kvTwo) ∧
  exp (DeleteExpired 200 order1 kvTwo) !! 120 = Some {["b"]} ∧
  items (DeleteExpired 200 order1 kvTwo) !! "b"
    = Some (MkItem "b" (Dyn "vb") 120) ∧
  exp (DeleteExpired 200 order2 kvTwo) !! 110 = Some {["a"]} ∧
  items (DeleteExpired 200 order2 kvTwo) !! "a"
    = Some (MkItem "a" (Dyn "va") 110) ∧
  exp (DeleteExpired 110 order1 kvTwo) !! 110 = Some {["a"]}.
Proof.
  cbv zeta. split; [|split].
  - vm_compute. reflexivity.
  - vm_compute. apply perm_swap.
  - vm_compute. done.
Qed.

(** C4. The claim: for each key the sweep evicts, the on-evicted callback is
    launched once with that key and the value removed. The program passes the
    fields of the item [deleteInner] returns, which is the zero item, and of
    these the expiration, not the object: with both callbacks registered and
    ["a"] holding ["v"], the sweep launches onDeleted("a", "v") and
    onEvicted("", int64(0)). *)
Theorem DeleteExpired_callback_arguments :
  items kvAIndexed !! "a" = Some (MkItem "a" (Dyn "v") 150) ∧
  map_to_list (exp kvAIndexed) = [(150, {["a"]})] ∧
  spawned (DeleteExpired 200 [(150, {["a"]})] kvAIndexed) =
    [go_onDeleted "a" (Dyn "v"); go_onEvicted "" (Int64 0)].
Proof. vm_compute. done. Qed.

(** C5. The claim: [Delete] of a present key removes it, launches the
    on-deleted callback with the value removed, sends a [Removed] value with
    that key and its expiration, and returns no error; of an absent key it
    returns the not-found error. The program does all of this except for the
    [Removed] value, which carries the key and expiration of the zero item
    that [deleteInner] returns: for ["a"], expiring at 150, it sends
    ("", 0). *)
Theorem Delete_sends_zero_meta :
  items kvA !! "a" = Some (MkItem "a" (Dyn "v") 150) ∧
  (Delete "a" kvA).2 = None ∧
  items (Delete "a" kvA).1 !! "a" = None ∧
  spawned (Delete "a" kvA).1 = [go_onDeleted "a" (Dyn "v")] ∧
  metaDelete (Delete "a" kvA).1 = [Meta "" 0] ∧
  (Delete "a" (Delete "a" kvA).1).2 = Some (errors_New "key args not exist").
Proof. vm_compute. done. Qed.

(** C6. The claim: [Update] of an absent key returns the not-found error
    and changes nothing; of a present key it replaces the value and keeps the
    stored expiration, so that [Get] of an unexpired key then returns the new
    value. The program does the first two, but its [Get] tests
    [Expiration > now] alone: after [Set("name", "mike", NoExpiration)] and
    [Update("name", "v2")] the item holds ["v2"] with expiration 0, never to
    expire, and [Get] returns (nil, false); likewise an item updated and read
    at the very instant of its expiration, which has not passed, is not
    found. *)
Theorem Update_then_Get_misses_unexpired_item :
  (Update "name" (Dyn "v2") kvName).2 = None ∧
  items (Update "name" (Dyn "v2") kvName).1 !! "name"
    = Some (MkItem "name" (Dyn "v2") 0) ∧
  Get 100 "name" (Update "name" (Dyn "v2") kvName).1 = (Nil, false) ∧
  items (Update "k" (Dyn "v2") kvHour).1 !! "k"
    = Some (MkItem "k" (Dyn "v2") 3700) ∧
  Get 3700 "k" (Update "k" (Dyn "v2") kvHour).1 = (Nil, false) ∧
  Update "absent" (Dyn "v2") kvName
    = (kvName, Some (errors_New "object doesn't exist")).
Proof. vm_compute. done. Qed.

(** C9, as stated, fails. A [Removed] value, or an [Updated] one, that takes
    the last key out of bucket 150 leaves the bucket in the index, empty; and
    an [Updated] value whose new expiration is 0 files the key under
    bucket 0. *)
Lemma janitor_events_leave_empty_bucket :
  exp kvAIndexed !! 150 = Some {["a"]} ∧
  exp (janitorDelete (Meta "a" 150) kvAIndexed) !! 150 = Some ∅ ∧
  exp (janitorUpdate (UpdateMeta (Meta "a" 300) 150) kvAIndexed) !! 150
    = Some ∅ ∧
  exp (janitorUpdate (UpdateMeta (Meta "a" 0) 150) kvAIndexed) !! 0
    = Some {["a"]}.
Proof. vm_compute. done. Qed.

End Concrete.

(** ** The other readers *)

Section Readers.

Context {V : Type}.
Implicit Types (kv : KV V) (item : Item V) (order : list (string * Item V)).

(** X1. [IsExist] answers true exactly when [Get] finds the key: the two read
    the store and the clock in the same way. *)
Theorem IsExist_agrees_with_Get now key kv :
  IsExist now key kv = (Get now key kv).2.
Proof. apply IsExist_Get. Qed.

(** X2. [IsExpired] fails with its not-found error exactly for a key that is
    not in the store, and then answers false; for a key in the store it
    returns no error and the negation of [IsExist], and the store is not
    touched (it returns no store). *)
Theorem IsExpired_negates_IsExist now key kv :
  (items kv !! key = None →
     IsExpired now key kv =
       (false, Some (errors_New "requested key are not exist"))) ∧
  (is_Some (items kv !! key) →
     IsExpired now key kv = (negb (IsExist now key kv), None)).
Proof.
  unfold IsExpired, IsExist. split.
  - intros ->. reflexivity.
  - intros [val ->].
    destruct (decide (Expiration val > now)) as [Hlater|Hlater].
    + by rewrite bool_decide_eq_true_2.
    + by rewrite bool_decide_eq_false_2.
Qed.

(** X3. [Item.Expired] and the readers disagree at the deadline itself: an
    item [Expired] reports is never found, an item that is found is never
    reported expired, and an item is neither found nor reported expired
    exactly when its expiration equals the clock reading. *)
Theorem Expired_and_IsExist_at_deadline now key kv item :
  items kv !! key = Some item →
  (Expired now item = true → IsExist now key kv = false) ∧
  (IsExist now key kv = true → Expired now item = false) ∧
  (Expired now item = false ∧ IsExist now key kv = false ↔
   Expiration item = now).
Proof.
  intros Hlook. unfold Expired, IsExist. rewrite Hlook.
  rewrite !bool_decide_eq_true, !bool_decide_eq_false. lia.
Qed.

Lemma ItemCount_size now kv :
  ItemCount now kv =
  Z.of_nat (size (filter (λ e, Expiration e.2 > now) (items kv))).
Proof.
  unfold ItemCount, Range.
  apply (map_fold_weak_ind (λ total (m : gmap string (Item V)),
    total = Z.of_nat (size (filter (λ e, Expiration e.2 > now) m)))).
  - by rewrite map_filter_empty, map_size_empty.
  - intros i x m r Hi ->. rewrite map_filter_insert. simpl.
    destruct (decide (Expiration x > now)) as [Hlater|Hlater].
    + rewrite map_size_insert_None; [lia|].
      apply map_lookup_filter_None. by left.
    + by rewrite delete_id.
Qed.

(** X4. [ItemCountAll] is the number of entries in the store, [ItemCount]
    the number of those whose expiration is after now; so [ItemCount] never
    exceeds [ItemCountAll] and neither is negative. *)
Theorem ItemCount_counts now kv :
  ItemCountAll kv = Z.of_nat (size (items kv)) ∧
  ItemCount now kv =
    Z.of_nat (size (filter (λ e, Expiration e.2 > now) (items kv))) ∧
  0 <= ItemCount now kv <= ItemCountAll kv.
Proof.
  rewrite ItemCountAll_size, ItemCount_size.
  split; [done|]. split; [done|].
  pose proof (map_subseteq_size _ _
    (map_filter_subseteq (λ e, Expiration e.2 > now) (items kv))).
  lia.
Qed.

(** The walks of [List] and [ListAll], on entries that are stored under the
    key they hold, rebuild the map the entries came from. *)
Lemma order_snoc order key item :
  NoDup (order ++ [(key, item)]).*1 → NoDup order.*1 ∧ key ∉ order.*1.
Proof.
  rewrite fmap_app. intros (Hnd & Hnot & _)%NoDup_app. split; [done|].
  intros Hin. apply (Hnot _ Hin). simpl. apply list_elem_of_here.
Qed.

Lemma ListAll_list_to_map order :
  NoDup order.*1 → (∀ key item, (key, item) ∈ order → Key item = key) →
  ListAll order = list_to_map order.
Proof.
  induction order as [|[key item] order IH] using rev_ind; [done|].
  intros [Hnd Hfresh]%order_snoc Hkeyed.
  unfold ListAll. rewrite foldl_snoc. fold (ListAll order).
  rewrite list_to_map_snoc by done.
  rewrite IH, (Hkeyed key item); [done| |done|].
  - apply elem_of_app. right. apply list_elem_of_here.
  - intros k it Hin. apply Hkeyed, elem_of_app. by left.
Qed.

Lemma List_list_to_map now order :
  NoDup order.*1 → (∀ key item, (key, item) ∈ order → Key item = key) →
  List now order = filter (λ e, Expiration e.2 > now) (list_to_map order).
Proof.
  induction order as [|[key item] order IH] using rev_ind.
  { intros _ _. symmetry. apply map_filter_empty. }
  intros [Hnd Hfresh]%order_snoc Hkeyed.
  unfold List. rewrite foldl_snoc. fold (List now order).
  rewrite list_to_map_snoc, map_filter_insert by done. simpl.
  rewrite IH; [|done|].
  - destruct (decide (Expiration item > now)) as [Hlater|Hlater].
    + rewrite (Hkeyed key item); [done|].
      apply elem_of_app. right. apply list_elem_of_here.
    + rewrite delete_id; [done|]. by apply not_elem_of_list_to_map_1.
  - intros k it Hin. apply Hkeyed, elem_of_app. by left.
Qed.

Lemma order_of_items order kv :
  keyed kv → order ≡ₚ map_to_list (items kv) →
  NoDup order.*1 ∧ (∀ key item, (key, item) ∈ order → Key item = key) ∧
  list_to_map order = items kv.
Proof.
  intros Hkeyed Hperm. split; [|split].
  - rewrite Hperm. apply NoDup_fst_map_to_list.
  - intros key item Hin. rewrite Hperm in Hin.
    by apply Hkeyed, elem_of_map_to_list.
  - rewrite (list_to_map_proper order (map_to_list (items kv))); [|
      rewrite Hperm; apply NoDup_fst_map_to_list | done].
    apply list_to_map_to_list.
Qed.

(** X5. When every item is stored under the key it holds, [ListAll] returns
    the store's entries as they are, whatever the order of the walk, and
    [List] returns those of them that [IsExist] accepts. *)
Theorem List_and_ListAll_snapshot now order kv :
  keyed kv → order ≡ₚ map_to_list (items kv) →
  ListAll order = items kv ∧
  (∀ key, List now order !! key =
          if IsExist now key kv then items kv !! key else None).
Proof.
  intros Hkeyed Hperm.
  destruct (order_of_items order kv Hkeyed Hperm) as (Hnd & Hk & Hmap).
  split; [by rewrite ListAll_list_to_map|].
  intros key. rewrite List_list_to_map, Hmap by done.
  unfold IsExist. destruct (items kv !! key) as [item|] eqn:Hlook.
  - destruct (decide (Expiration item > now)) as [Hlater|Hlater].
    + rewrite bool_decide_eq_true_2 by done.
      by apply map_lookup_filter_Some.
    + rewrite bool_decide_eq_false_2 by done.
      apply map_lookup_filter_None. right.
      intros x Hx. rewrite Hlook in Hx. by injection Hx as <-.
  - apply map_lookup_filter_None. by left.
Qed.

(** X6. The counts are the sizes of the lists: [ItemCountAll] is the number
    of entries [ListAll] returns and [ItemCount] the number [List] returns at
    the same clock reading, when every item is stored under the key it
    holds. *)
Theorem ItemCount_is_size_of_List now order kv :
  keyed kv → order ≡ₚ map_to_list (items kv) →
  ItemCountAll kv = Z.of_nat (size (ListAll order)) ∧
  ItemCount now kv = Z.of_nat (size (List now order)).
Proof.
  intros Hkeyed Hperm.
  destruct (order_of_items order kv Hkeyed Hperm) as (Hnd & Hk & Hmap).
  rewrite ListAll_list_to_map, List_list_to_map, Hmap by done.
  split; [apply ItemCountAll_size | apply ItemCount_size].
Qed.

End Readers.

Lemma Expired_and_IsExist_at_deadline_witness :
  Expired 3700 (MkItem "k" (Dyn "v1" : iface string) 3700) = false ∧
  IsExist 3700 "k" Examples.kvHour = false.
Proof.
  destruct (Expired_and_IsExist_at_deadline 3700 "k" Examples.kvHour
              (MkItem "k" (Dyn "v1") 3700)) as (_ & _ & Hiff).
  - vm_compute. reflexivity.
  - apply Hiff. reflexivity.
Defined.

Lemma IsExpired_negates_IsExist_witness :
  IsExpired 3700 "k" Examples.kvHour = (true, None).
Proof.
  destruct (IsExpired_negates_IsExist 3700 "k" Examples.kvHour)
    as [_ Hpresent].
  rewrite Hpresent.
  - vm_compute. reflexivity.
  - exists (MkItem "k" (Dyn "v1") 3700). vm_compute. reflexivity.
Defined.

(** ** What the operations keep *)

Section Keeping.

Context {V : Type}.
Implicit Types (kv : KV V) (value : iface V) (item : Item V).

Lemma Update_items key value kv item :
  items kv !! key = Some item →
  items (Update key value kv).1 =
  <[key := MkItem (Key item) value (Expiration item)]> (items kv).
Proof. intros Hlook. unfold Update. by rewrite Hlook. Qed.

Lemma Update_absent key value kv :
  items kv !! key = None →
  Update key value kv = (kv, Some (errors_New "object doesn't exist")).
Proof. intros Hlook. unfold Update. by rewrite Hlook. Qed.

Lemma Delete_items key kv : items (Delete key kv).1 = delete key (items kv).
Proof.
  destruct (items kv !! key) as [item|] eqn:Hlook.
  - by destruct (Delete_present key kv item Hlook) as (_ & Hitems & _).
  - rewrite (Delete_absent key kv Hlook). simpl. symmetry. by apply delete_id.
Qed.

Lemma janitorAdd_items lm kv : items (janitorAdd lm kv) = items kv.
Proof. unfold janitorAdd. by destruct (exp kv !! meta_Expiration lm). Qed.

Lemma janitorDelete_items md kv : items (janitorDelete md kv) = items kv.
Proof. unfold janitorDelete. by destruct (exp kv !! meta_Expiration md). Qed.

Lemma janitorAdd_spawned lm kv : spawned (janitorAdd lm kv) = spawned kv.
Proof. unfold janitorAdd. by destruct (exp kv !! meta_Expiration lm). Qed.

Lemma janitorDelete_spawned md kv :
  spawned (janitorDelete md kv) = spawned kv.
Proof. unfold janitorDelete. by destruct (exp kv !! meta_Expiration md). Qed.

Lemma DeleteExpired_items_subseteq now order kv :
  items (DeleteExpired now order kv) ⊆ items kv.
Proof.
  apply map_subseteq_spec. intros k item.
  destruct (firstDue now order) as [[t keys]|] eqn:Hfirst.
  - unfold DeleteExpired. rewrite Hfirst. simpl.
    rewrite foldl_evictKey_items. by destruct (decide _).
  - by rewrite (DeleteExpired_none _ _ _ Hfirst).
Qed.

(** A receive changes neither the store nor the trace of goroutines. *)
Lemma runJanitor_receive now kv kv' :
  runJanitor now kv kv' →
  metaAdd kv ≠ [] ∨ metaUpdate kv ≠ [] ∨ metaDelete kv ≠ [] →
  items kv' = items kv ∧ spawned kv' = spawned kv.
Proof.
  intros Hstep Hpending.
  destruct Hstep as [lm q kv _|mu q kv _|md q kv _|order kv Ha Hu Hd _].
  - by rewrite janitorAdd_items, janitorAdd_spawned.
  - rewrite janitorUpdate_arms.
    by rewrite janitorAdd_items, janitorAdd_spawned, janitorDelete_items,
      janitorDelete_spawned.
  - by rewrite janitorDelete_items, janitorDelete_spawned.
  - by destruct Hpending as [?|[?|?]].
Qed.

Lemma runJanitor_items_subseteq now kv kv' :
  runJanitor now kv kv' → items kv' ⊆ items kv.
Proof.
  intros Hstep.
  destruct Hstep as [lm q kv _|mu q kv _|md q kv _|order kv _ _ _ _].
  - by rewrite janitorAdd_items.
  - by rewrite janitorUpdate_arms, janitorAdd_items, janitorDelete_items.
  - by rewrite janitorDelete_items.
  - apply DeleteExpired_items_subseteq.
Qed.

(** X7. One turn of the janitor's loop never puts an item into the store nor
    changes one: the store after the turn is a part of the store before it.
    While a value is waiting in some channel the turn is a receive, which
    leaves the store and the launched goroutines exactly as they were: the
    sweep runs only when all three channels are empty. *)
Theorem runJanitor_only_removes now kv kv' :
  runJanitor now kv kv' →
  items kv' ⊆ items kv ∧
  (metaAdd kv ≠ [] ∨ metaUpdate kv ≠ [] ∨ metaDelete kv ≠ [] →
   items kv' = items kv ∧ spawned kv' = spawned kv).
Proof.
  intros Hstep. split.
  - by apply (runJanitor_items_subseteq now).
  - by apply (runJanitor_receive now).
Qed.

Lemma keyed_New d c : keyed (New (V:=V) d c).
Proof.
  intros key item Hlook. simpl in Hlook. by rewrite lookup_empty in Hlook.
Qed.

Lemma keyed_subseteq kv kv' : items kv' ⊆ items kv → keyed kv → keyed kv'.
Proof.
  intros Hsub Hkeyed key item Hlook.
  apply Hkeyed. by apply (lookup_weaken _ _ _ _ Hlook).
Qed.

Lemma keyed_Set now key value exp kv :
  keyed kv → keyed (Set_ now key value exp kv).
Proof.
  intros Hkeyed key' item. rewrite Set_items.
  destruct (decide (key = key')) as [->|Hne].
  - rewrite lookup_insert_eq. by intros [= <-].
  - rewrite lookup_insert_ne by done. apply Hkeyed.
Qed.

Lemma keyed_Update key value kv : keyed kv → keyed (Update key value kv).1.
Proof.
  intros Hkeyed. destruct (items kv !! key) as [obj|] eqn:Hlook.
  - intros key' item. rewrite (Update_items _ _ _ _ Hlook).
    destruct (decide (key = key')) as [->|Hne].
    + rewrite lookup_insert_eq. intros [= <-]. simpl. by apply Hkeyed.
    + rewrite lookup_insert_ne by done. apply Hkeyed.
  - by rewrite (Update_absent _ _ _ Hlook).
Qed.

(** X8. Every item is stored under the key it holds: this is so in a new
    store, and [Set], [Update], [Delete], [Flush] and every turn of the
    janitor keep it so. *)
Theorem keyed_is_kept now key value exp kv :
  keyed kv →
  (∀ d c, keyed (New (V:=V) d c)) ∧
  keyed (Set_ now key value exp kv) ∧
  keyed (Update key value kv).1 ∧
  keyed (Delete key kv).1 ∧
  keyed (Flush kv) ∧
  (∀ kv', runJanitor now kv kv' → keyed kv').
Proof.
  intros Hkeyed.
  split; [apply keyed_New|].
  split; [by apply keyed_Set|].
  split; [by apply keyed_Update|].
  split; [|split].
  - apply (keyed_subseteq kv); [|done].
    rewrite Delete_items. apply delete_subseteq.
  - apply (keyed_subseteq kv); [|done].
    rewrite Flush_items. apply map_empty_subseteq.
  - intros kv' Hstep. apply (keyed_subseteq kv); [|done].
    by apply (runJanitor_items_subseteq now).
Qed.

End Keeping.

Lemma List_and_ListAll_snapshot_witness :
  ListAll (map_to_list (items Examples.kvPair)) = items Examples.kvPair.
Proof.
  destruct (List_and_ListAll_snapshot 0 (map_to_list (items Examples.kvPair))
              Examples.kvPair) as [Hall _].
  - apply keyed_Set, keyed_Set, keyed_New.
  - reflexivity.
  - exact Hall.
Defined.

Lemma ItemCount_is_size_of_List_witness :
  ItemCount 115 Examples.kvPair =
  Z.of_nat (size (List 115 (map_to_list (items Examples.kvPair)))).
Proof.
  destruct (ItemCount_is_size_of_List 115
              (map_to_list (items Examples.kvPair)) Examples.kvPair)
    as [_ Hcount].
  - apply keyed_Set, keyed_Set, keyed_New.
  - reflexivity.
  - exact Hcount.
Defined.

Lemma runJanitor_only_removes_witness :
  items Examples.kvNameIndexed ⊆ items Examples.kvName.
Proof.
  destruct (runJanitor_only_removes 100 Examples.kvName
              Examples.kvNameIndexed) as [Hsub _].
  - unfold Examples.kvNameIndexed. by apply recv_metaAdd.
  - exact Hsub.
Defined.

Lemma keyed_is_kept_witness :
  keyed (Set_ 100 "a" (Dyn "va") 10 Examples.kv0).
Proof.
  destruct (keyed_is_kept 100 "a" (Dyn "va") 10 Examples.kv0)
    as (_ & Hset & _).
  - apply keyed_New.
  - exact Hset.
Defined.

(** ** The index follows the store *)

Section Indexing.

Context {V : Type}.
Implicit Types (kv : KV V) (value : iface V) (item : Item V).

Lemma Set_exp now key value ttl kv :
  exp (Set_ now key value ttl kv) = exp kv.
Proof.
  unfold Set_. destruct (items kv !! key); simpl; [|done].
  by destruct (decide _).
Qed.

Lemma filed_janitorAdd lm kv key t :
  filed kv key t → filed (janitorAdd lm kv) key t.
Proof.
  intros (keys & Hbucket & Hin). destruct lm as [k t']. unfold filed.
  rewrite janitorAdd_lookup. destruct (decide (t = t')) as [->|Hne].
  - exists ({[k]} ∪ default ∅ (exp kv !! t')). split; [done|].
    rewrite Hbucket. simpl. apply elem_of_union. by right.
  - by exists keys.
Qed.

Lemma filed_janitorAdd_new key t kv : filed (janitorAdd (Meta key t) kv) key t.
Proof.
  unfold filed. rewrite janitorAdd_lookup, decide_True by done.
  eexists. split; [done|]. apply elem_of_union. left.
  by apply elem_of_singleton.
Qed.

Lemma filed_janitorDelete k t' kv key t :
  key ≠ k → filed kv key t → filed (janitorDelete (Meta k t') kv) key t.
Proof.
  intros Hne (keys & Hbucket & Hin). unfold filed.
  rewrite janitorDelete_lookup. destruct (decide (t = t')) as [->|Hne'].
  - rewrite Hbucket. simpl. eexists. split; [done|].
    apply elem_of_difference. split; [done|].
    by rewrite elem_of_singleton.
  - by exists keys.
Qed.

(** The sweep keeps the index in step: the keys of the bucket it drops are
    the ones it deletes from the store. *)
Lemma indexed_DeleteExpired now order kv :
  indexed kv → order ≡ₚ map_to_list (exp kv) → 0 < now →
  indexed (DeleteExpired now order kv).
Proof.
  intros Hindexed Hperm Hnow key item.
  destruct (firstDue now order) as [[t keys]|] eqn:Hfirst.
  - destruct (firstDue_Some _ _ _ _ Hfirst) as (Hin & _ & _).
    rewrite Hperm in Hin. apply elem_of_map_to_list in Hin.
    destruct (DeleteExpired_found now order kv t keys Hfirst)
      as (Hexp & Hgone & Hkept).
    destruct (decide (key ∈ keys)) as [Hkey|Hkey].
    { by rewrite (Hgone key Hkey). }
    rewrite (Hkept key Hkey). intros Hlook.
    destruct (Hindexed key item Hlook) as (keys' & Hbucket & Hkey').
    exists keys'. split; [|done]. rewrite Hexp.
    rewrite lookup_delete_ne; [done|].
    intros Heq. rewrite <- Heq, Hin in Hbucket.
    injection Hbucket as <-. done.
  - rewrite (DeleteExpired_none _ _ _ Hfirst). simpl. intros Hlook.
    destruct (Hindexed key item Hlook) as (keys' & Hbucket & Hkey').
    exists keys'. split; [|done]. simpl.
    rewrite lookup_delete_ne; [done|].
    intros Hzero.
    apply elem_of_map_to_list in Hbucket. rewrite <- Hperm in Hbucket.
    apply (firstDue_None _ _ _ _ Hfirst Hbucket). split; [lia|].
    destruct (size keys') eqn:Hsize; [|lia].
    apply size_empty_inv in Hsize. by apply Hsize in Hkey'.
Qed.

(** X9. The sweep keeps the index in step with the store: if every stored
    item's key is filed in the bucket of its expiration before a pass (at a
    clock reading after the epoch), it is so after the pass, for every order
    of the walk. The bucket the pass drops takes with it every item filed in
    it. *)
Theorem DeleteExpired_keeps_indexed now order kv :
  indexed kv → order ≡ₚ map_to_list (exp kv) → 0 < now →
  indexed (DeleteExpired now order kv).
Proof. apply indexed_DeleteExpired. Qed.

Lemma indexed_Set_same now key value ttl kv prior :
  indexed kv → items kv !! key = Some prior →
  Expiration prior = expiredAt now ttl kv →
  indexed (Set_ now key value ttl kv).
Proof.
  intros Hindexed Hprior Hsame key' item. unfold indexed, filed.
  rewrite Set_items, Set_exp.
  destruct (decide (key = key')) as [->|Hne].
  - rewrite lookup_insert_eq. intros [= <-]. simpl. rewrite <- Hsame.
    by apply Hindexed.
  - rewrite lookup_insert_ne by done. apply Hindexed.
Qed.

(** [Set], then the janitor's next turn. *)
Lemma indexed_Set_turn now now' key value ttl kv kv' :
  indexed kv → drained kv → 0 < now' →
  runJanitor now' (Set_ now key value ttl kv) kv' → indexed kv'.
Proof.
  intros Hindexed (Ha & Hu & Hd) Hnow Hstep.
  pose proof (Set_items now key value ttl kv) as Hitems.
  pose proof (Set_exp now key value ttl kv) as Hexp.
  destruct (items kv !! key) as [prior|] eqn:Hlook.
  - destruct (decide (Expiration prior = expiredAt now ttl kv))
      as [Hsame|Hchanged].
    + destruct (Set_same_events now key value ttl kv prior Hlook Hsame)
        as (Ha' & Hu' & Hd').
      rewrite Ha in Ha'. rewrite Hu in Hu'. rewrite Hd in Hd'.
      inversion Hstep as [lm q ? Hq|mu q ? Hq|md q ? Hq|order ? _ _ _ Hperm];
        subst; try congruence.
      apply indexed_DeleteExpired; [|done..].
      by apply (indexed_Set_same _ _ _ _ _ prior).
    + destruct (Set_changed_events now key value ttl kv prior Hlook Hchanged)
        as (Ha' & Hu' & Hd').
      rewrite Ha in Ha'. rewrite Hu in Hu'. rewrite Hd in Hd'.
      simpl in Hu'.
      inversion Hstep as [lm q ? Hq|mu q ? Hq|md q ? Hq|order ? _ Hq _ _];
        subst; try congruence.
      rewrite Hu' in Hq. injection Hq as <- <-.
      rewrite janitorUpdate_arms. simpl.
      intros key' item.
      rewrite janitorAdd_items, janitorDelete_items. simpl. rewrite Hitems.
      destruct (decide (key = key')) as [->|Hne].
      * rewrite lookup_insert_eq. intros [= <-]. simpl.
        apply filed_janitorAdd_new.
      * rewrite lookup_insert_ne by done. intros Hitem.
        apply filed_janitorAdd, filed_janitorDelete; [done|].
        destruct (Hindexed key' item Hitem) as (keys & Hbucket & Hin).
        exists keys. simpl. by rewrite Hexp.
  - destruct (Set_absent_events now key value ttl kv Hlook)
      as (Ha' & Hu' & Hd').
    rewrite Ha in Ha'. rewrite Hu in Hu'. rewrite Hd in Hd'.
    simpl in Ha'.
    inversion Hstep as [lm q ? Hq|mu q ? Hq|md q ? Hq|order ? Hq _ _ _];
      subst; try congruence.
    rewrite Ha' in Hq. injection Hq as <- <-.
    intros key' item.
    rewrite janitorAdd_items. simpl. rewrite Hitems.
    destruct (decide (key = key')) as [->|Hne].
    + rewrite lookup_insert_eq. intros [= <-]. simpl.
      apply filed_janitorAdd_new.
    + rewrite lookup_insert_ne by done. intros Hitem.
      apply filed_janitorAdd.
      destruct (Hindexed key' item Hitem) as (keys & Hbucket & Hin).
      exists keys. simpl. by rewrite Hexp.
Qed.

(** [Update], then the janitor's next turn. *)
Lemma indexed_Update_turn now' key value kv kv' :
  indexed kv → drained kv → 0 < now' →
  runJanitor now' (Update key value kv).1 kv' → indexed kv'.
Proof.
  intros Hindexed (Ha & Hu & Hd) Hnow Hstep.
  destruct (items kv !! key) as [obj|] eqn:Hlook.
  - pose proof (Update_items key value kv obj Hlook) as Hitems.
    unfold Update in Hstep, Hitems. rewrite Hlook in Hstep, Hitems.
    simpl in Hstep, Hitems. rewrite Ha in Hstep. simpl in Hstep.
    inversion Hstep as [lm q ? Hq|mu q ? Hq|md q ? Hq|order ? Hq _ _ _];
      subst; simpl in *; try congruence.
    injection Hq as <- <-.
    intros key' item. rewrite janitorAdd_items. simpl.
    destruct (decide (key = key')) as [->|Hne].
    + rewrite lookup_insert_eq. intros [= <-]. simpl.
      apply filed_janitorAdd.
      destruct (Hindexed key' obj Hlook) as (keys & Hbucket & Hin).
      by exists keys.
    + rewrite lookup_insert_ne by done. intros Hitem.
      apply filed_janitorAdd.
      destruct (Hindexed key' item Hitem) as (keys & Hbucket & Hin).
      by exists keys.
  - rewrite (Update_absent _ _ _ Hlook) in Hstep. simpl in Hstep.
    inversion Hstep as [lm q ? Hq|mu q ? Hq|md q ? Hq|order ? _ _ _ Hperm];
      subst; try congruence.
    by apply indexed_DeleteExpired.
Qed.

(** X10. With no value waiting in the channels and every stored item filed
    under its expiration, a [Set] or an [Update] followed by one turn of the
    janitor (the receive of the value the write sent, or a sweep when it sent
    none) leaves every stored item filed under its expiration again. *)
Theorem write_then_janitor_keeps_indexed now now' key value ttl kv :
  indexed kv → drained kv → 0 < now' →
  (∀ kv', runJanitor now' (Set_ now key value ttl kv) kv' → indexed kv') ∧
  (∀ kv', runJanitor now' (Update key value kv).1 kv' → indexed kv').
Proof.
  intros Hindexed Hdrained Hnow. split; intros kv' Hstep.
  - by apply (indexed_Set_turn now now' key value ttl kv).
  - by apply (indexed_Update_turn now' key value kv).
Qed.

End Indexing.

Lemma indexed_no_items {V : Type} (kv : KV V) : items kv = ∅ → indexed kv.
Proof. intros Hempty key item. by rewrite Hempty, lookup_empty. Qed.

Lemma indexed_kvAIndexed : indexed Examples.kvAIndexed.
Proof.
  apply (indexed_Set_turn 100 200 "a" (Dyn "v") 50
           (OnEvicted true (OnDeleted true Examples.kv0))).
  - by apply indexed_no_items.
  - by repeat split.
  - lia.
  - unfold Examples.kvAIndexed, Examples.kvA. by apply recv_metaAdd.
Qed.

Lemma DeleteExpired_keeps_indexed_witness :
  indexed (DeleteExpired 200 [(150, {["a"]})] Examples.kvAIndexed).
Proof.
  apply DeleteExpired_keeps_indexed.
  - apply indexed_kvAIndexed.
  - vm_compute. reflexivity.
  - lia.
Defined.

Lemma write_then_janitor_keeps_indexed_witness :
  indexed (janitorAdd (Meta "a" 150)
             (with_metaAdd [] Examples.kvA)).
Proof.
  destruct (write_then_janitor_keeps_indexed 100 200 "a" (Dyn "v") 50
              (OnEvicted true (OnDeleted true Examples.kv0)))
    as [Hset _].
  - by apply indexed_no_items.
  - by repeat split.
  - lia.
  - apply Hset. unfold Examples.kvA. by apply recv_metaAdd.
Defined.

(** ** Writes, reads and callbacks *)

Section Composing.

Context {V : Type}.
Implicit Types (kv : KV V) (value : iface V) (item : Item V).

(** X11. Receiving the same [Added] value twice files the key once: the
    second receive changes nothing. ([Update] sends such a value for a key
    that, as a rule, is filed already.) And when the key is already in its
    bucket, one receive leaves the index as it was. *)
Theorem janitorAdd_idempotent lm kv :
  janitorAdd lm (janitorAdd lm kv) = janitorAdd lm kv ∧
  (filed kv (meta_Key lm) (meta_Expiration lm) →
   exp (janitorAdd lm kv) = exp kv).
Proof.
  destruct lm as [k t]. split.
  - unfold janitorAdd. simpl.
    destruct (exp kv !! t) as [curr|] eqn:Hlook; simpl;
      rewrite lookup_insert_eq; unfold with_exp; simpl;
      rewrite insert_insert_eq; do 2 f_equal;
      apply set_eq; intros x; rewrite !elem_of_union; tauto.
  - intros (keys & Hbucket & Hin). simpl in *.
    unfold janitorAdd. simpl. rewrite Hbucket. simpl.
    apply insert_id. rewrite Hbucket. f_equal.
    apply set_eq. intros x. rewrite elem_of_union, elem_of_singleton.
    split; [by right | intros [->|Hx]; done].
Qed.

Lemma evictKey_unregistered k kv :
  onDeleted kv = false → onEvicted kv = false →
  spawned (evictKey k kv) = spawned kv ∧
  onDeleted (evictKey k kv) = false ∧ onEvicted (evictKey k kv) = false.
Proof.
  intros Hd He. unfold evictKey, deleteInner.
  destruct (items kv !! k) as [item|]; rewrite ?Hd; simpl; rewrite ?He;
    by rewrite ?andb_false_r.
Qed.

Lemma foldl_evictKey_unregistered (l : list string) kv :
  onDeleted kv = false → onEvicted kv = false →
  spawned (foldl (λ kv k, evictKey k kv) kv l) = spawned kv.
Proof.
  revert kv. induction l as [|k l IH]; intros kv Hd He; simpl; [done|].
  destruct (evictKey_unregistered k kv Hd He) as (Hs & Hd' & He').
  by rewrite IH.
Qed.

(** X12. No callback is launched that was not registered, and none by a
    write: [Set] and [Update] launch nothing; [Delete] launches nothing when
    no on-deleted callback is registered; a sweep launches nothing when
    neither callback is registered. *)
Theorem no_callback_unless_registered now key value ttl order kv :
  spawned (Set_ now key value ttl kv) = spawned kv ∧
  spawned (Update key value kv).1 = spawned kv ∧
  (onDeleted kv = false → spawned (Delete key kv).1 = spawned kv) ∧
  (onDeleted kv = false → onEvicted kv = false →
   spawned (DeleteExpired now order kv) = spawned kv).
Proof.
  split; [|split; [|split]].
  - unfold Set_. destruct (items kv !! key); simpl; [|done].
    by destruct (decide _).
  - unfold Update. by destruct (items kv !! key).
  - intros Hd. unfold Delete, deleteInner.
    destruct (items kv !! key); by rewrite ?Hd.
  - intros Hd He. unfold DeleteExpired.
    destruct (firstDue now order) as [[t keys]|]; simpl; [|done].
    by apply foldl_evictKey_unregistered.
Qed.

Lemma Get_same_lookup now key kv kv' :
  items kv' !! key = items kv !! key → Get now key kv' = Get now key kv.
Proof. intros Heq. unfold Get. by rewrite Heq. Qed.

(** X13. A write touches its own key only: after [Set], [Update] or
    [Delete] of one key, [Get] of any other key returns what it returned
    before. *)
Theorem writes_are_local now now' key key' value ttl kv :
  key ≠ key' →
  Get now' key' (Set_ now key value ttl kv) = Get now' key' kv ∧
  Get now' key' (Update key value kv).1 = Get now' key' kv ∧
  Get now' key' (Delete key kv).1 = Get now' key' kv.
Proof.
  intros Hne. split; [|split]; apply Get_same_lookup.
  - rewrite Set_items. by apply lookup_insert_ne.
  - destruct (items kv !! key) as [obj|] eqn:Hlook.
    + rewrite (Update_items _ _ _ _ Hlook). by apply lookup_insert_ne.
    + by rewrite (Update_absent _ _ _ Hlook).
  - rewrite Delete_items. by apply lookup_delete_ne.
Qed.

(** X14. Read after write. A value set with an explicit duration, or with the
    default one, is what [Get] returns for the key at every clock reading
    before now + duration, whatever the store held, and [Get] finds nothing
    from that instant on (the sum fitting in 64 bits). *)
Theorem Get_after_Set now now' key value ttl kv :
  (ttl ≠ DefaultExpiration → ttl ≠ NoExpiration → in_int64 (now + ttl) →
   Get now' key (Set_ now key value ttl kv) =
     if decide (now' < now + ttl) then (value, true) else (Nil, false)) ∧
  (in_int64 (now + defaultExpiration kv) →
   Get now' key (Set_ now key value DefaultExpiration kv) =
     if decide (now' < now + defaultExpiration kv) then (value, true)
     else (Nil, false)).
Proof.
  assert (∀ ttl', Get now' key (Set_ now key value ttl' kv) =
    if decide (now' < expiredAt now ttl' kv) then (value, true)
    else (Nil, false)) as Hget.
  { intros ttl'. unfold Get. rewrite Set_items, lookup_insert_eq. simpl.
    destruct (decide (expiredAt now ttl' kv > now')),
      (decide (now' < expiredAt now ttl' kv)); done || lia. }
  split.
  - intros Hd Hn Hfit.
    by rewrite Hget, expiredAt_other, unixNanoAdd_exact.
  - intros Hfit. by rewrite Hget, expiredAt_Default, unixNanoAdd_exact.
Qed.

(** X15. The count of entries follows the writes: [Set] adds one when the
    key was not in the store and none when it was, [Update] never changes
    the count, [Delete] takes one off when the key was in the store and none
    when it was not. *)
Theorem ItemCountAll_after_writes now key value ttl kv :
  ItemCountAll (Set_ now key value ttl kv) =
    ItemCountAll kv + (if items kv !! key is Some _ then 0 else 1) ∧
  ItemCountAll (Update key value kv).1 = ItemCountAll kv ∧
  ItemCountAll (Delete key kv).1 =
    ItemCountAll kv - (if items kv !! key is Some _ then 1 else 0).
Proof.
  rewrite !ItemCountAll_size, Set_items, Delete_items.
  rewrite map_size_insert, map_size_delete.
  destruct (items kv !! key) as [obj|] eqn:Hlook; simpl.
  - rewrite (Update_items _ _ _ _ Hlook), map_size_insert, Hlook. simpl.
    assert (size (items kv) ≠ 0%nat)
      by (apply (map_size_ne_0_lookup_2 _ key); eauto).
    lia.
  - rewrite (Update_absent _ _ _ Hlook). simpl. lia.
Qed.

Lemma evictKey_absent k kv : items kv !! k = None → evictKey k kv = kv.
Proof.
  intros Hlook. unfold evictKey. by rewrite (deleteInner_absent _ _ Hlook).
Qed.

Lemma foldl_evictKey_no_items (l : list string) kv :
  items kv = ∅ → foldl (λ kv k, evictKey k kv) kv l = kv.
Proof.
  intros Hempty. induction l as [|k l IH]; simpl; [done|].
  rewrite evictKey_absent; [done|]. by rewrite Hempty, lookup_empty.
Qed.

(** X16. [Flush] does not clear the index, so a later sweep may still pick a
    bucket of flushed keys; such a sweep finds none of them in the store,
    deletes nothing and launches no callback. *)
Theorem sweep_after_Flush_is_silent now order kv :
  exp (Flush kv) = exp kv ∧
  items (DeleteExpired now order (Flush kv)) = ∅ ∧
  spawned (DeleteExpired now order (Flush kv)) = spawned kv.
Proof.
  split; [apply Flush_frame|].
  assert (spawned (Flush kv) = spawned kv) as Hspawned by apply Flush_frame.
  unfold DeleteExpired.
  destruct (firstDue now order) as [[t keys]|]; simpl.
  - rewrite foldl_evictKey_no_items by apply Flush_items.
    split; [apply Flush_items | done].
  - split; [apply Flush_items | done].
Qed.

End Composing.

Lemma janitorAdd_idempotent_witness :
  exp (janitorAdd (Meta "a" 150) Examples.kvAIndexed) =
  exp Examples.kvAIndexed.
Proof.
  destruct (janitorAdd_idempotent (Meta "a" 150) Examples.kvAIndexed)
    as [_ Hfiled].
  apply Hfiled. exists {["a"]}. split.
  - vm_compute. reflexivity.
  - by apply elem_of_singleton.
Defined.

Lemma no_callback_unless_registered_witness :
  spawned (Delete "name" Examples.kvName).1 = spawned Examples.kvName.
Proof.
  destruct (no_callback_unless_registered 100 "name" Examples.mike 50 []
              Examples.kvName) as (_ & _ & Hdelete & _).
  apply Hdelete. reflexivity.
Defined.

Lemma writes_are_local_witness :
  Get 105 "a" (Delete "b" Examples.kvPair).1 = Get 105 "a" Examples.kvPair.
Proof.
  destruct (writes_are_local 100 105 "b" "a" (Dyn "x") 50 Examples.kvPair)
    as (_ & _ & Hdelete).
  - discriminate.
  - exact Hdelete.
Defined.

Lemma Get_after_Set_witness :
  Get 120 "k" (Set_ 100 "k" (Dyn "v1") 3600 Examples.kv0) = (Dyn "v1", true).
Proof.
  destruct (Get_after_Set 100 120 "k" (Dyn "v1") 3600 Examples.kv0)
    as [Hexplicit _].
  rewrite Hexplicit.
  - reflexivity.
  - discriminate.
  - discriminate.
  - unfold in_int64. lia.
Defined.

(** ** The earlier sweep *)

Section EarlierSweep.

Context {V : Type}.
Implicit Types (kv : KV V) (item : Item V).

Lemma evictions_Permutation now (l l' : list (string * Item V)) :
  l ≡ₚ l' → Earlier.evictions now l ≡ₚ Earlier.evictions now l'.
Proof. intros Hperm. unfold Earlier.evictions. by rewrite Hperm. Qed.

Lemma evictions_cons now key item (l : list (string * Item V)) :
  Earlier.evictions now ((key, item) :: l) =
  if decide (now > Expiration item) then
    go_onEvicted (Key item) (Object item) :: Earlier.evictions now l
  else Earlier.evictions now l.
Proof.
  unfold Earlier.evictions. rewrite filter_cons. simpl.
  by destruct (decide (now > Expiration item)).
Qed.

(** X17. The sweep of the earlier version walks the whole store: one pass
    removes exactly the items whose expiration is strictly before now and
    keeps every other item as it is; when an on-evicted callback is
    registered it is launched once for each removed item, with the key and
    the object of that item, and not at all otherwise. *)
Theorem Earlier_DeleteExpired_sweeps_every_expired now kv :
  let kv' := Earlier.DeleteExpired now kv in
  (∀ key, items kv' !! key =
     match items kv !! key with
     | Some item => if decide (now > Expiration item) then None else Some item
     | None => None
     end) ∧
  spawned kv' ≡ₚ
    spawned kv ++
      (if onEvicted kv then Earlier.evictions now (map_to_list (items kv)) else []).
Proof.
  cbv zeta. unfold Earlier.DeleteExpired, Range.
  cut (∀ m : gmap string (Item V),
    let r := map_fold (λ key item kv,
               if decide (now > Expiration item) then
                 with_items
                   (delete key
                      (items
                         (if onEvicted kv then
                            spawn (go_onEvicted (Key item) (Object item)) kv
                          else kv)))
                   (if onEvicted kv then
                      spawn (go_onEvicted (Key item) (Object item)) kv
                    else kv)
               else kv) kv m in
    onEvicted r = onEvicted kv ∧
    (∀ key, items r !! key =
       match m !! key with
       | Some item =>
           if decide (now > Expiration item) then None else items kv !! key
       | None => items kv !! key
       end) ∧
    spawned r ≡ₚ
      spawned kv ++
        (if onEvicted kv then Earlier.evictions now (map_to_list m) else [])).
  { intros Hfold. destruct (Hfold (items kv)) as (_ & Hitems & Hspawned).
    split; [|exact Hspawned].
    intros key. rewrite Hitems. by destruct (items kv !! key). }
  apply (map_fold_weak_ind (λ r (m : gmap string (Item V)),
    onEvicted r = onEvicted kv ∧
    (∀ key, items r !! key =
       match m !! key with
       | Some item =>
           if decide (now > Expiration item) then None else items kv !! key
       | None => items kv !! key
       end) ∧
    spawned r ≡ₚ
      spawned kv ++
        (if onEvicted kv then Earlier.evictions now (map_to_list m) else []))).
  - split; [done|]. split; [done|].
    rewrite map_to_list_empty. destruct (onEvicted kv); simpl;
      by rewrite app_nil_r.
  - intros i x m r Hi (Hcb & Hitems & Hspawned).
    assert (Earlier.evictions now (map_to_list (<[i:=x]> m)) ≡ₚ
            Earlier.evictions now ((i, x) :: map_to_list m)) as Hlist.
    { by apply evictions_Permutation, map_to_list_insert. }
    rewrite evictions_cons in Hlist.
    destruct (decide (now > Expiration x)) as [Hdue|Hkeep].
    + split; [by destruct (onEvicted r) eqn:Hr; simpl; rewrite <- Hcb|].
      split.
      * intros key. simpl. destruct (decide (i = key)) as [->|Hne].
        -- rewrite lookup_delete_eq, lookup_insert_eq.
           by rewrite decide_True.
        -- rewrite lookup_delete_ne, lookup_insert_ne by done.
           rewrite <- Hitems. by destruct (onEvicted r).
      * rewrite Hcb. revert Hspawned.
        destruct (onEvicted kv); simpl; intros Hspawned.
        -- rewrite Hlist, <- (Permutation_middle (spawned kv)), <- Hspawned.
           symmetry. apply Permutation_cons_append.
        -- done.
    + split; [done|]. split.
      * intros key. destruct (decide (i = key)) as [->|Hne].
        -- rewrite lookup_insert_eq, decide_False by done.
           by rewrite Hitems, Hi.
        -- by rewrite lookup_insert_ne.
      * revert Hspawned. destruct (onEvicted kv); [|done].
        intros Hspawned. by rewrite Hlist.
Qed.

End EarlierSweep.

(** ** Deleting and overwriting *)

Section Turns.

Context {V : Type}.
Implicit Types (kv : KV V) (value : iface V) (item : Item V).

(** X18. [Delete] of a key that is not in the store returns its not-found
    error and the store as it was. [Delete] of a key that is in the store
    returns no error, removes that entry and no other, and launches the
    on-deleted callback, if one is registered, with the key and the object
    that was stored; after it [Get] finds nothing under the key at any clock
    reading, and a second [Delete] returns the not-found error. *)
Theorem Delete_removes_and_reports key kv :
  (items kv !! key = None →
     Delete key kv = (kv, Some (errors_New "key args not exist"))) ∧
  (∀ item, items kv !! key = Some item →
     (Delete key kv).2 = None ∧
     items (Delete key kv).1 = delete key (items kv) ∧
     spawned (Delete key kv).1 =
       spawned kv ++
         (if onDeleted kv then [go_onDeleted key (Object item)] else []) ∧
     (∀ now, Get now key (Delete key kv).1 = (Nil, false)) ∧
     (Delete key (Delete key kv).1).2 =
       Some (errors_New "key args not exist")).
Proof.
  split; [apply Delete_absent|].
  intros item Hlook.
  destruct (Delete_present key kv item Hlook) as (Herr & Hitems & Hsp & _).
  split; [done|]. split; [done|]. split; [done|]. split.
  - intros now. apply Get_absent. rewrite Hitems. apply lookup_delete_eq.
  - by destruct (Delete_twice key kv item Hlook).
Qed.

Lemma expiredAt_Set now now' key value ttl ttl' kv :
  expiredAt now' ttl' (Set_ now key value ttl kv) = expiredAt now' ttl' kv.
Proof.
  assert (defaultExpiration (Set_ now key value ttl kv)
          = defaultExpiration kv) as Hdefault.
  { unfold Set_. destruct (items kv !! key); simpl; [|done].
    by destruct (decide _). }
  unfold expiredAt. by rewrite Hdefault.
Qed.

(** X20. The last write wins: two [Set]s of the same key leave in the store
    what the second alone would have left, and a [Set] after a [Delete]
    likewise. *)
Theorem Set_overwrites now now' key value value' ttl ttl' kv :
  items (Set_ now' key value' ttl' (Set_ now key value ttl kv)) =
    items (Set_ now' key value' ttl' kv) ∧
  items (Set_ now' key value' ttl' (Delete key kv).1) =
    items (Set_ now' key value' ttl' kv).
Proof.
  split.
  - by rewrite !Set_items, expiredAt_Set, insert_insert_eq.
  - assert (defaultExpiration (Delete key kv).1 = defaultExpiration kv)
      as Hdefault.
    { unfold Delete, deleteInner.
      destruct (items kv !! key); [|done]. by destruct (onDeleted kv). }
    rewrite !Set_items, Delete_items, insert_delete_eq.
    unfold expiredAt. by rewrite Hdefault.
Qed.

End Turns.

Lemma Delete_removes_and_reports_witness :
  Get 105 "a" (Delete "a" Examples.kvPair).1 = (Nil, false).
Proof.
  destruct (Delete_removes_and_reports "a" Examples.kvPair) as [_ Hpresent].
  destruct (Hpresent (MkItem "a" (Dyn "va") 110)) as (_ & _ & _ & Hget & _).
  - vm_compute. reflexivity.
  - apply Hget.
Defined.
